(** * leveldb::Slice and leveldb::Slice_v  (include/leveldb/slice.h)

    A shallow embedding of the two classes of [slice.h] and of the free
    operators declared next to them.

    - A [Slice] is a pointer into storage it does not own, and a length.  The
      storage is modelled as a heap of byte buffers; a pointer is a buffer
      and an offset into it.  Reading outside the buffer a pointer designates
      is undefined behaviour in C++ and is the outcome [Undefined] here.
    - [assert] is modelled as compiled in (no NDEBUG): a failing assertion
      ends the computation with the outcome [AssertionFailure].
    - [size_t] values are natural numbers.  The only arithmetic the header
      performs on a size is the subtraction of [remove_prefix], which the
      assertion in front of it keeps from wrapping around.
    - [int] values are integers of [Z]; the header only compares them and
      prints them, it does no arithmetic on them.
    - [memcmp] and [std::to_string] belong to the C and C++ libraries; they
      are modelled after their standard contracts, and the theorems only use
      the sign of what [memcmp] returns. *)

From Stdlib Require Import ZArith Strings.Byte Strings.String.
From Stdlib Require Import Numbers.DecimalString Numbers.DecimalPos Numbers.DecimalZ.
From stdpp Require Import base option list.

(** ** Outcomes of a call *)

Inductive result (A : Type) : Type :=
  | Ok (a : A)
  | AssertionFailure
  | Undefined.
Arguments Ok {A} a.
Arguments AssertionFailure {A}.
Arguments Undefined {A}.

#[global] Instance result_ret : MRet result := @Ok.
#[global] Instance result_bind : MBind result := λ A B f m,
  match m with
  | Ok a => f a
  | AssertionFailure => AssertionFailure
  | Undefined => Undefined
  end.

(** [assert(b)] of <cassert>. *)
Definition cassert (b : bool) : result unit :=
  if b then Ok () else AssertionFailure.

(** ** Storage: buffers, pointers, reads *)

Definition block := nat.

Record ptr := Ptr { blk : block; off : nat }.

(** The heap is the list of the buffers allocated so far; a block is an
    index into it.  Buffers are never written after their allocation. *)
Abbreviation heap := (list (list byte)).

(** [p + n] on a [const char*]. *)
Definition ptr_add (p : ptr) (n : nat) : ptr := Ptr (blk p) (off p + n).

(** The [n] bytes at [p]. *)
Definition load (h : heap) (p : ptr) (n : nat) : result (list byte) :=
  match h !! blk p with
  | Some buf =>
      if bool_decide (off p + n ≤ length buf)
      then Ok (take n (drop (off p) buf))
      else Undefined
  | None => Undefined
  end.

(** [*p]. *)
Definition load_byte (h : heap) (p : ptr) : result byte :=
  match h !! blk p with
  | Some buf =>
      match buf !! off p with
      | Some c => Ok c
      | None => Undefined
      end
  | None => Undefined
  end.

(** A new buffer holding [bs]. *)
Definition alloc (bs : list byte) (h : heap) : heap * block :=
  (h ++ [bs], length h).

(** The string literal [""]: a static array holding the terminating NUL.  It
    is block 0 of the heap a program starts with. *)
Definition heap_init : heap := [[x00]].
Definition empty_literal : ptr := Ptr 0 0.

(** ** The library functions the header calls *)

#[global] Instance byte_eq_decision : EqDecision byte := Byte.byte_eq_dec.

(** A byte read as [unsigned char]. *)
Definition uchar (c : byte) : Z := Z.of_N (Byte.to_N c).

(** [memcmp] on the bytes read: zero when they agree, and otherwise of the
    sign of the difference of the first two bytes that differ, both read as
    [unsigned char] (C11 7.24.4.1).  This one returns that difference. *)
Fixpoint memcmp_bytes (a b : list byte) : Z :=
  match a, b with
  | x :: a', y :: b' =>
      if Byte.eqb x y then memcmp_bytes a' b' else (uchar x - uchar y)%Z
  | _, _ => 0%Z
  end.

Definition memcmp (h : heap) (p q : ptr) (n : nat) : result Z :=
  a ← load h p n;
  b ← load h q n;
  Ok (memcmp_bytes a b).

(** [strlen] on the bytes at the pointer: the number of bytes in front of
    the first NUL (C11 7.24.6.3).  There is no result when the buffer ends
    before a NUL is met: the scan would leave the storage. *)
Fixpoint strlen_bytes (bs : list byte) : option nat :=
  match bs with
  | [] => None
  | c :: bs' => if Byte.eqb c x00 then Some 0 else S <$> strlen_bytes bs'
  end.

Definition strlen (h : heap) (p : ptr) : result nat :=
  match h !! blk p with
  | Some buf =>
      match strlen_bytes (drop (off p) buf) with
      | Some n => Ok n
      | None => Undefined
      end
  | None => Undefined
  end.

(** [std::to_string(int)]: the decimal digits, after a minus sign for a
    negative number (as [sprintf] with "%d"). *)
Definition to_string (z : Z) : list byte :=
  list_byte_of_string (NilZero.string_of_int (Z.to_int z)).

(** A [std::string]: the buffer it owns and its length. *)
Record std_string := { str_buf : block; str_len : nat }.

Definition string_new (bs : list byte) (h : heap) : heap * std_string :=
  let (h', b) := alloc bs h in
  (h', {| str_buf := b; str_len := length bs |}).

(** [s.data()] and [s.size()]. *)
Definition string_data (s : std_string) : ptr := Ptr (str_buf s) 0.
Definition string_size (s : std_string) : nat := str_len s.

(** ** class Slice *)

Record Slice := { data_ : ptr; size_ : nat }.

Module Slice.

(** [Slice() : data_(""), size_(0)] *)
Definition make_empty : Slice := {| data_ := empty_literal; size_ := 0 |}.

(** [Slice(const char* d, size_t n) : data_(d), size_(n)] *)
Definition make (d : ptr) (n : nat) : Slice := {| data_ := d; size_ := n |}.

(** [Slice(const std::string& s) : data_(s.data()), size_(s.size())] *)
Definition of_string (s : std_string) : Slice :=
  {| data_ := string_data s; size_ := string_size s |}.

(** [Slice(const char* s) : data_(s), size_(strlen(s))] *)
Definition of_cstr (h : heap) (s : ptr) : result Slice :=
  n ← strlen h s; Ok {| data_ := s; size_ := n |}.

Definition data (s : Slice) : ptr := data_ s.
Definition size (s : Slice) : nat := size_ s.
Definition empty (s : Slice) : bool := bool_decide (size_ s = 0).

(** [char operator[](size_t n) const]:
    [assert(n < size()); return data_[n];] *)
Definition operator_index (h : heap) (s : Slice) (n : nat) : result byte :=
  cassert (bool_decide (n < size s));;
  load_byte h (ptr_add (data_ s) n).

(** [void clear()]: [data_ = ""; size_ = 0;] *)
Definition clear (s : Slice) : Slice :=
  {| data_ := empty_literal; size_ := 0 |}.

(** [void remove_prefix(size_t n)]:
    [assert(n <= size()); data_ += n; size_ -= n;] *)
Definition remove_prefix (s : Slice) (n : nat) : result Slice :=
  cassert (bool_decide (n ≤ size s));;
  Ok {| data_ := ptr_add (data_ s) n; size_ := size_ s - n |}.

(** [std::string ToString() const]: the bytes copied out. *)
Definition ToString (h : heap) (s : Slice) : result (list byte) :=
  load h (data_ s) (size_ s).

(** [int Slice::compare(const Slice& b) const] *)
Definition compare (h : heap) (a b : Slice) : result Z :=
  let min_len := if bool_decide (size_ a < size_ b) then size_ a else size_ b in
  r ← memcmp h (data_ a) (data_ b) min_len;
  Ok (if bool_decide (r = 0%Z)
      then (if bool_decide (size_ a < size_ b) then (-1)%Z
            else if bool_decide (size_ b < size_ a) then 1%Z
            else r)
      else r).

(** [bool starts_with(const Slice& x) const]; [&&] does not evaluate its
    right operand when the left one is false. *)
Definition starts_with (h : heap) (s x : Slice) : result bool :=
  if bool_decide (size_ x ≤ size_ s)
  then r ← memcmp h (data_ s) (data_ x) (size_ x); Ok (bool_decide (r = 0%Z))
  else Ok false.

End Slice.

(** [bool operator==(const Slice& x, const Slice& y)] *)
Definition operator_eq (h : heap) (x y : Slice) : result bool :=
  if bool_decide (Slice.size x = Slice.size y)
  then r ← memcmp h (Slice.data x) (Slice.data y) (Slice.size x);
       Ok (bool_decide (r = 0%Z))
  else Ok false.

(** [bool operator!=(const Slice& x, const Slice& y)]: [!(x == y)] *)
Definition operator_ne (h : heap) (x y : Slice) : result bool :=
  b ← operator_eq h x y; Ok (negb b).

(** ** class Slice_v : public Slice *)

(** The base subobject and the three members.  [to_Slice] is the conversion
    of a [Slice_v] to its base, which C++ applies when a [Slice_v] is passed
    where a [const Slice&] is expected. *)
Record Slice_v := {
  to_Slice :> Slice;
  src_ : Z;
  dst_ : Z;
  s_ : std_string
}.

Module Slice_v.

(** [Slice_v() : dst_(0), src_(0) {}]: the base is [Slice()], and [s_] a
    [std::string] with no character. *)
Definition make_empty (h : heap) : heap * Slice_v :=
  let (h', s) := string_new [] h in
  (h', {| to_Slice := Slice.make_empty; src_ := 0; dst_ := 0; s_ := s |}).

(** [Slice_v(int src, int dst)]:
    [s_(std::to_string(src) + '|' + std::to_string(dst)), src_(src),
     dst_(dst)] and, in the body, [data_ = s_.data(); size_ = s_.size();] *)
Definition make (src dst : Z) (h : heap) : heap * Slice_v :=
  let (h', s) := string_new (to_string src ++ ["|"%byte] ++ to_string dst) h in
  (h', {| to_Slice := {| data_ := string_data s; size_ := string_size s |};
          src_ := src; dst_ := dst; s_ := s |}).

(** The copy constructor, which the class leaves to the compiler: each
    member is copied.  The base is copied as a [Slice] (pointer and length
    as they are), and [s_] is copy-constructed: a string of its own with the
    same characters. *)
Definition copy (h : heap) (k : Slice_v) : result (heap * Slice_v) :=
  bs ← load h (string_data (s_ k)) (string_size (s_ k));
  let (h', s) := string_new bs h in
  Ok (h', {| to_Slice := to_Slice k; src_ := src_ k; dst_ := dst_ k;
             s_ := s |}).

Definition src (k : Slice_v) : Z := src_ k.
Definition dst (k : Slice_v) : Z := dst_ k.

(** [int Slice_v::compare(const Slice_v& b) const] *)
Definition compare (a b : Slice_v) : Z :=
  if bool_decide (src_ a < src_ b)%Z then (-1)%Z
  else if bool_decide (src_ b < src_ a)%Z then 1%Z
  else if bool_decide (dst_ a < dst_ b)%Z then (-1)%Z
  else if bool_decide (dst_ b < dst_ a)%Z then 1%Z
  else 0%Z.

End Slice_v.

(** [bool operator==(Slice_v x, Slice_v& y)].  [x] is a copy of the argument;
    the body reads the two integers of each side only. *)
Definition operator_eq_v (x y : Slice_v) : bool :=
  bool_decide (Slice_v.src x = Slice_v.src y) &&
  (bool_decide (Slice_v.dst x = Slice_v.dst y)
   || bool_decide (Slice_v.dst x = (-1)%Z)
   || bool_decide (Slice_v.dst y = (-1)%Z)).

(** [bool operator!=(const Slice_v& x, const Slice_v& y)]: [!(x == y)].
    Both operands of this [==] are lvalues of type [const Slice_v].  The
    second parameter of [operator==(Slice_v, Slice_v&)] is a reference to a
    non-const [Slice_v], which cannot bind to a const object, so that
    overload is not viable here; overload resolution selects
    [operator==(const Slice&, const Slice&)], with both operands converted
    to their [Slice] base.  The comparison negated is the byte-wise one. *)
Definition operator_ne_v (h : heap) (x y : Slice_v) : result bool :=
  b ← operator_eq h (to_Slice x) (to_Slice y); Ok (negb b).

(** ** Specification side *)

(** The bytes a slice designates: the [size_] bytes at [data_]. *)
Definition view (h : heap) (s : Slice) : result (list byte) :=
  load h (data_ s) (size_ s).

(** Lexicographic order on byte sequences, bytes compared as unsigned: the
    first position where the sequences differ decides, and a sequence that
    ends first sorts first. *)
Fixpoint lex_compare (a b : list byte) : comparison :=
  match a, b with
  | [], [] => Eq
  | [], _ :: _ => Lt
  | _ :: _, [] => Gt
  | x :: a', y :: b' =>
      match (uchar x ?= uchar y)%Z with
      | Eq => lex_compare a' b'
      | c => c
      end
  end.

(** What [Slice::compare] computes, on the bytes of its two operands. *)
Definition compare_bytes (a b : list byte) : Z :=
  let n := length a `min` length b in
  let m := memcmp_bytes (take n a) (take n b) in
  if bool_decide (m = 0%Z)
  then (if bool_decide (length a < length b) then (-1)%Z
        else if bool_decide (length b < length a) then 1%Z
        else m)
  else m.

(** The text ["<source>|<destination>"]. *)
Definition encoding (s d : Z) : list byte :=
  to_string s ++ list_byte_of_string "|" ++ to_string d.

(** Reading a decimal rendering back. *)
Definition parse_decimal (bs : list byte) : option Z :=
  Z.of_int <$> NilZero.int_of_string (string_of_list_byte bs).

(** The heap holds the string literal [""] where [empty_literal] points. *)
Definition has_literal (h : heap) : Prop :=
  h !! blk empty_literal = Some [x00].

(** [*this < b] in the order of [Slice::compare]. *)
Definition Slice_lt (h : heap) (a b : Slice) : Prop :=
  ∃ r, Slice.compare h a b = Ok r ∧ (r < 0)%Z.

(** The relation [operator==] on [Slice_v] decides. *)
Definition Slice_v_equal (x y : Slice_v) : Prop := operator_eq_v x y = true.

(** ** Reads *)

Ltac result_simpl :=
  unfold mbind, result_bind, mret, result_ret in *; simpl in *.

Lemma load_Ok_inv h p n bs :
  load h p n = Ok bs →
  ∃ buf, h !! blk p = Some buf ∧ off p + n ≤ length buf
         ∧ bs = take n (drop (off p) buf).
Proof.
  unfold load. destruct (h !! blk p) as [buf|]; [|discriminate].
  case_bool_decide; [|discriminate].
  intros [= <-]. eauto.
Qed.

Lemma load_Ok_intro h p n buf :
  h !! blk p = Some buf → off p + n ≤ length buf →
  load h p n = Ok (take n (drop (off p) buf)).
Proof.
  intros Hb Hn. unfold load. rewrite Hb.
  by rewrite bool_decide_eq_true_2.
Qed.

Lemma load_length h p n bs : load h p n = Ok bs → length bs = n.
Proof.
  intros (buf & _ & Hn & ->)%load_Ok_inv.
  rewrite length_take, length_drop. lia.
Qed.

Lemma load_take h p n k bs :
  load h p n = Ok bs → k ≤ n → load h p k = Ok (take k bs).
Proof.
  intros (buf & Hb & Hn & ->)%load_Ok_inv Hk.
  rewrite take_take, Nat.min_l by lia.
  apply load_Ok_intro; [done | lia].
Qed.

Lemma load_ptr_add h p n k bs :
  load h p n = Ok bs → k ≤ n → load h (ptr_add p k) (n - k) = Ok (drop k bs).
Proof.
  intros (buf & Hb & Hn & ->)%load_Ok_inv Hk.
  rewrite (load_Ok_intro h (ptr_add p k) (n - k) buf); simpl; [|done|lia].
  f_equal. by rewrite skipn_firstn_comm, drop_drop.
Qed.

Lemma load_byte_ptr_add h p n i bs :
  load h p n = Ok bs → i < n →
  ∃ c, bs !! i = Some c ∧ load_byte h (ptr_add p i) = Ok c.
Proof.
  intros (buf & Hb & Hn & ->)%load_Ok_inv Hi.
  destruct (lookup_lt_is_Some_2 buf (off p + i)) as [c Hc]; [lia|].
  exists c. split.
  - by rewrite lookup_take_lt, lookup_drop.
  - unfold load_byte. simpl. by rewrite Hb, Hc.
Qed.

(** Allocation leaves the buffers that exist as they are. *)
Lemma load_alloc h p n bs new :
  load h p n = Ok bs → load (alloc new h).1 p n = Ok bs.
Proof.
  intros (buf & Hb & Hn & ->)%load_Ok_inv. simpl.
  apply load_Ok_intro; [|done].
  by apply lookup_app_l_Some.
Qed.

Lemma load_alloc_new h new :
  load (alloc new h).1 (Ptr (alloc new h).2 0) (length new) = Ok new.
Proof.
  simpl. unfold load. simpl.
  rewrite list_lookup_middle by done.
  rewrite bool_decide_eq_true_2 by (simpl; lia).
  by rewrite drop_0, firstn_all.
Qed.

(** ** Bytes and their order *)

Lemma uchar_inj x y : uchar x = uchar y → x = y.
Proof.
  unfold uchar. intros H%(inj Z.of_N).
  assert (Some x = Some y) as [= ->]; [|done].
  by rewrite <- !Byte.of_to_N, H.
Qed.

Lemma byte_eqb_true x : Byte.eqb x x = true.
Proof. by apply Byte.byte_dec_lb. Qed.

Lemma byte_eqb_false x y : x ≠ y → Byte.eqb x y = false.
Proof.
  intros Hne. destruct (Byte.eqb x y) eqn:E; [|done].
  by apply Byte.byte_dec_bl in E.
Qed.

(** [memcmp] is zero exactly on equal byte ranges. *)
Lemma memcmp_bytes_zero a b :
  length a = length b → memcmp_bytes a b = 0%Z ↔ a = b.
Proof.
  revert b. induction a as [|x a IH]; intros [|y b] Hlen; simpl in *; try done.
  destruct (Byte.eqb x y) eqn:E.
  - apply Byte.byte_dec_bl in E as ->.
    rewrite IH by lia. split; [by intros -> | by intros [= ->]].
  - apply Byte.eqb_false in E. split.
    + intros H. destruct E. apply uchar_inj. lia.
    + by intros [= -> _].
Qed.

Lemma lex_compare_refl a : lex_compare a a = Eq.
Proof. induction a as [|x a IH]; simpl; [done|]. by rewrite Z.compare_refl. Qed.

Lemma lex_compare_Eq a b : lex_compare a b = Eq → a = b.
Proof.
  revert b. induction a as [|x a IH]; intros [|y b]; simpl; try done.
  destruct (uchar x ?= uchar y)%Z eqn:E; try done.
  apply Z.compare_eq, uchar_inj in E as ->. by intros ->%IH.
Qed.

Lemma lex_compare_antisym a b : lex_compare b a = CompOpp (lex_compare a b).
Proof.
  revert b. induction a as [|x a IH]; intros [|y b]; simpl; try done.
  rewrite (Z.compare_antisym (uchar x) (uchar y)).
  destruct (uchar x ?= uchar y)%Z; simpl; auto.
Qed.

Lemma lex_compare_trans a b c :
  lex_compare a b = Lt → lex_compare b c = Lt → lex_compare a c = Lt.
Proof.
  revert b c.
  induction a as [|x a IH]; intros [|y b] [|z c]; simpl; try done.
  destruct (uchar x ?= uchar y)%Z eqn:Exy; try done;
    destruct (uchar y ?= uchar z)%Z eqn:Eyz; try done; intros Hab Hbc.
  - apply Z.compare_eq in Exy, Eyz.
    replace (uchar x ?= uchar z)%Z with Eq
      by (symmetry; apply Z.compare_eq_iff; lia).
    eauto.
  - apply Z.compare_eq in Exy. by rewrite Exy, Eyz.
  - apply Z.compare_eq in Eyz. by rewrite <- Eyz, Exy.
  - rewrite Z.compare_lt_iff in Exy, Eyz.
    replace (uchar x ?= uchar z)%Z with Lt
      by (symmetry; apply Z.compare_lt_iff; lia).
    done.
Qed.

Lemma lex_compare_prefix a t : t ≠ [] → lex_compare a (a ++ t) = Lt.
Proof.
  intros Ht. induction a as [|x a IH]; simpl.
  - by destruct t.
  - by rewrite Z.compare_refl.
Qed.

(** Two operands that begin with the same byte are ordered as their
    tails are. *)
Lemma compare_bytes_cons x a b :
  compare_bytes (x :: a) (x :: b) = compare_bytes a b.
Proof.
  unfold compare_bytes. simpl. rewrite byte_eqb_true.
  repeat case_bool_decide; done || lia.
Qed.

Lemma compare_bytes_differ x y a b :
  x ≠ y → compare_bytes (x :: a) (y :: b) = (uchar x - uchar y)%Z.
Proof.
  intros Hne. unfold compare_bytes. simpl. rewrite byte_eqb_false by done.
  rewrite bool_decide_eq_false_2; [done|].
  intros H. apply Hne, uchar_inj. lia.
Qed.

Lemma compare_bytes_by_memcmp a b :
  let n := length a `min` length b in
  let m := memcmp_bytes (take n a) (take n b) in
  (m ≠ 0%Z → compare_bytes a b = m)
  ∧ (m = 0%Z → length a < length b → (compare_bytes a b < 0)%Z)
  ∧ (m = 0%Z → length b < length a → (0 < compare_bytes a b)%Z)
  ∧ (m = 0%Z → length a = length b → compare_bytes a b = 0%Z).
Proof.
  intros n m. unfold compare_bytes. fold n. fold m.
  repeat split; intros; repeat case_bool_decide; done || lia.
Qed.

(** The sign of what [compare] returns is the lexicographic order of the
    bytes. *)
Lemma compare_bytes_sign a b : (compare_bytes a b ?= 0)%Z = lex_compare a b.
Proof.
  revert b. induction a as [|x a IH]; intros [|y b]; try done.
  simpl. destruct (decide (x = y)) as [->|Hne].
  - by rewrite compare_bytes_cons, Z.compare_refl.
  - rewrite compare_bytes_differ by done.
    assert (uchar x ≠ uchar y) by (by intros ?%uchar_inj).
    destruct (uchar x ?= uchar y)%Z eqn:E.
    + by apply Z.compare_eq in E.
    + rewrite Z.compare_lt_iff in *. lia.
    + rewrite Z.compare_gt_iff in *. lia.
Qed.

Lemma compare_bytes_refl a : compare_bytes a a = 0%Z.
Proof.
  apply Z.compare_eq. by rewrite compare_bytes_sign, lex_compare_refl.
Qed.

Lemma compare_bytes_zero a b : compare_bytes a b = 0%Z ↔ a = b.
Proof.
  split; [|intros ->; apply compare_bytes_refl].
  intros H. apply lex_compare_Eq. rewrite <- compare_bytes_sign, H. done.
Qed.

Lemma compare_bytes_lt_gt a b :
  (compare_bytes a b < 0)%Z ↔ (0 < compare_bytes b a)%Z.
Proof.
  rewrite <- !Z.compare_lt_iff, (Z.compare_antisym _ 0%Z).
  rewrite !compare_bytes_sign, (lex_compare_antisym a b).
  destruct (lex_compare a b); simpl; split; done.
Qed.

(** ** Slice: comparison and equality *)

Lemma view_size h s bs : view h s = Ok bs → length bs = size_ s.
Proof. apply load_length. Qed.

Lemma memcmp_Ok h A B a b n :
  view h A = Ok a → view h B = Ok b → n ≤ size_ A → n ≤ size_ B →
  memcmp h (data_ A) (data_ B) n = Ok (memcmp_bytes (take n a) (take n b)).
Proof.
  intros HA HB HnA HnB. unfold memcmp.
  rewrite (load_take _ _ _ n _ HA), (load_take _ _ _ n _ HB) by done.
  done.
Qed.

Lemma compare_Ok h A B a b :
  view h A = Ok a → view h B = Ok b →
  Slice.compare h A B = Ok (compare_bytes a b).
Proof.
  intros HA HB. unfold Slice.compare, compare_bytes.
  rewrite (view_size _ _ _ HA), (view_size _ _ _ HB).
  replace (if bool_decide (size_ A < size_ B) then size_ A else size_ B)
    with (size_ A `min` size_ B) by (case_bool_decide; lia).
  rewrite (memcmp_Ok h A B a b) by (done || lia).
  done.
Qed.

Lemma operator_eq_Ok h A B a b :
  view h A = Ok a → view h B = Ok b →
  operator_eq h A B = Ok (bool_decide (a = b)).
Proof.
  intros HA HB. unfold operator_eq, Slice.size, Slice.data.
  pose proof (view_size _ _ _ HA) as La.
  pose proof (view_size _ _ _ HB) as Lb.
  case_bool_decide as Hsz.
  - rewrite (memcmp_Ok h A B a b) by (done || lia).
    rewrite <- La at 1. rewrite firstn_all.
    replace (size_ A) with (length b) by lia. rewrite firstn_all.
    result_simpl. f_equal. apply bool_decide_ext.
    apply memcmp_bytes_zero. lia.
  - f_equal. symmetry. apply bool_decide_eq_false_2.
    intros ->. lia.
Qed.

Lemma Slice_lt_bytes h A B a b :
  view h A = Ok a → view h B = Ok b →
  Slice_lt h A B ↔ lex_compare a b = Lt.
Proof.
  intros HA HB. unfold Slice_lt. rewrite (compare_Ok _ _ _ _ _ HA HB).
  rewrite <- compare_bytes_sign, Z.compare_lt_iff. split.
  - by intros (r & [= <-] & Hr).
  - eauto.
Qed.

(** C1.  [A.compare(B)] is the three-way lexicographic comparison of the
    bytes of [A] and [B].  It runs [memcmp] over the shorter of the two
    lengths; a non-zero outcome is the result; on a zero outcome (the bytes
    over the shorter length agree) the shorter slice sorts first, and the
    result is 0 for equal lengths.  The sign of the result is the
    lexicographic order of the two byte sequences; a strict proper prefix
    compares negative; and "compares negative" is a strict total order on
    byte spans: irreflexive, transitive, asymmetric, and any two spans are
    ordered one way or the other unless their bytes are equal. *)
Theorem Slice_compare_lexicographic h A B C a b c :
  view h A = Ok a → view h B = Ok b → view h C = Ok c →
  (∃ r m,
      Slice.compare h A B = Ok r
      ∧ memcmp h (data_ A) (data_ B) (size_ A `min` size_ B) = Ok m
      ∧ (m = 0%Z ↔
         take (size_ A `min` size_ B) a = take (size_ A `min` size_ B) b)
      ∧ (m ≠ 0%Z → r = m)
      ∧ (m = 0%Z → size_ A < size_ B → (r < 0)%Z)
      ∧ (m = 0%Z → size_ B < size_ A → (0 < r)%Z)
      ∧ (m = 0%Z → size_ A = size_ B → r = 0%Z)
      ∧ (r ?= 0)%Z = lex_compare a b
      ∧ (∀ t, t ≠ [] → b = a ++ t → (r < 0)%Z)
      ∧ (r = 0%Z ↔ a = b))
  ∧ ¬ Slice_lt h A A
  ∧ (Slice_lt h A B → Slice_lt h B C → Slice_lt h A C)
  ∧ (Slice_lt h A B → ¬ Slice_lt h B A)
  ∧ (Slice_lt h A B ∨ a = b ∨ Slice_lt h B A).
Proof.
  intros HA HB HC.
  pose proof (view_size _ _ _ HA) as La.
  pose proof (view_size _ _ _ HB) as Lb.
  split; [|split; [|split; [|split]]].
  - exists (compare_bytes a b),
      (memcmp_bytes (take (size_ A `min` size_ B) a)
                    (take (size_ A `min` size_ B) b)).
    split; [by apply compare_Ok|].
    split; [apply memcmp_Ok; done || lia|].
    split; [apply memcmp_bytes_zero; rewrite !length_take; lia|].
    rewrite <- La, <- Lb.
    destruct (compare_bytes_by_memcmp a b) as (H1 & H2 & H3 & H4).
    repeat split; try done.
    + apply compare_bytes_sign.
    + intros t Ht ->. rewrite <- Z.compare_lt_iff.
      by rewrite compare_bytes_sign, lex_compare_prefix.
    + apply compare_bytes_zero.
    + apply compare_bytes_zero.
  - rewrite (Slice_lt_bytes h A A a a) by done.
    by rewrite lex_compare_refl.
  - rewrite (Slice_lt_bytes h A B a b), (Slice_lt_bytes h B C b c),
      (Slice_lt_bytes h A C a c) by done.
    apply lex_compare_trans.
  - rewrite (Slice_lt_bytes h A B a b), (Slice_lt_bytes h B A b a) by done.
    rewrite (lex_compare_antisym a b). by intros ->.
  - rewrite (Slice_lt_bytes h A B a b), (Slice_lt_bytes h B A b a) by done.
    rewrite (lex_compare_antisym a b).
    destruct (lex_compare a b) eqn:E; simpl; auto.
    right; left. by apply lex_compare_Eq.
Qed.

Lemma Slice_compare_lexicographic_witness :
  let h : heap := [[x00]; list_byte_of_string "hello"; list_byte_of_string "he"] in
  let A := Slice.make (Ptr 2 0) 2 in
  let B := Slice.make (Ptr 1 0) 5 in
  let C := Slice.make (Ptr 1 1) 4 in
  view h A = Ok (list_byte_of_string "he")
  ∧ view h B = Ok (list_byte_of_string "hello")
  ∧ view h C = Ok (list_byte_of_string "ello")
  ∧ Slice_lt h A B
  ∧ ¬ Slice_lt h A A
  ∧ (Slice_lt h A B → Slice_lt h B C → Slice_lt h A C)
  ∧ (Slice_lt h A B → ¬ Slice_lt h B A).
Proof.
  intros h A B C.
  split; [reflexivity|]. split; [reflexivity|]. split; [reflexivity|].
  destruct (Slice_compare_lexicographic h A B C
              (list_byte_of_string "he") (list_byte_of_string "hello")
              (list_byte_of_string "ello") eq_refl eq_refl eq_refl)
    as ((r & m & Hr & _ & _ & _ & _ & _ & _ & _ & Hpre & _)
        & Hirr & Htr & Hasym & _).
  split; [|exact (conj Hirr (conj Htr Hasym))].
  exists r. split; [exact Hr|].
  apply (Hpre (list_byte_of_string "llo")); [discriminate | reflexivity].
Defined.

(** C2.  For slices [A] and [B] the three statements are equivalent:
    [A.compare(B) == 0]; [A == B]; the sizes are equal and the bytes match at
    every position.  Both calls return. *)
Theorem Slice_compare_zero_iff_eq h A B a b :
  view h A = Ok a → view h B = Ok b →
  ∃ r e,
    Slice.compare h A B = Ok r
    ∧ operator_eq h A B = Ok e
    ∧ (r = 0%Z ↔ e = true)
    ∧ (e = true ↔
       Slice.size A = Slice.size B
       ∧ ∀ i, i < Slice.size A → a !! i = b !! i)
    ∧ (r = 0%Z ↔
       Slice.size A = Slice.size B
       ∧ ∀ i, i < Slice.size A → a !! i = b !! i).
Proof.
  intros HA HB.
  pose proof (view_size _ _ _ HA) as La.
  pose proof (view_size _ _ _ HB) as Lb.
  exists (compare_bytes a b), (bool_decide (a = b)).
  split; [by apply compare_Ok|]. split; [by apply operator_eq_Ok|].
  assert (a = b ↔ Slice.size A = Slice.size B
                   ∧ ∀ i, i < Slice.size A → a !! i = b !! i) as Hpos.
  { unfold Slice.size. split.
    - intros ->. split; [lia | done].
    - intros [Hsz Hi]. apply list_eq. intros i.
      destruct (decide (i < size_ A)) as [Hlt|Hge]; [by apply Hi|].
      rewrite !lookup_ge_None_2; [done | lia | lia]. }
  rewrite compare_bytes_zero, bool_decide_eq_true. by rewrite <- Hpos.
Qed.

Lemma Slice_compare_zero_iff_eq_witness :
  let h : heap := [[x00]; list_byte_of_string "hehe"] in
  let A := Slice.make (Ptr 1 0) 2 in
  let B := Slice.make (Ptr 1 2) 2 in
  view h A = Ok (list_byte_of_string "he")
  ∧ view h B = Ok (list_byte_of_string "he")
  ∧ ∃ r e,
      Slice.compare h A B = Ok r
      ∧ operator_eq h A B = Ok e
      ∧ (r = 0%Z ↔ e = true).
Proof.
  intros h A B.
  split; [reflexivity|]. split; [reflexivity|].
  destruct (Slice_compare_zero_iff_eq h A B
              (list_byte_of_string "he") (list_byte_of_string "he")
              eq_refl eq_refl)
    as (r & e & Hr & He & Hre & _).
  exists r, e. exact (conj Hr (conj He Hre)).
Defined.

(** ** Slice: remove_prefix and indexed access *)

(** C7.  For a slice [S] designating the bytes [bs], and [n <= S.size()],
    [S.remove_prefix(n)] returns; afterwards the pointer is [n] bytes further
    in the same buffer, the size is [S.size() - n], and the slice designates
    the bytes of [S] from offset [n] to the end.  For [n > S.size()] the
    assertion fails. *)
Theorem remove_prefix_spec h S n bs :
  view h S = Ok bs →
  (n ≤ Slice.size S →
   ∃ S', Slice.remove_prefix S n = Ok S'
         ∧ blk (Slice.data S') = blk (Slice.data S)
         ∧ off (Slice.data S') = off (Slice.data S) + n
         ∧ Slice.size S' = Slice.size S - n
         ∧ view h S' = Ok (drop n bs))
  ∧ (Slice.size S < n → Slice.remove_prefix S n = AssertionFailure).
Proof.
  intros HS. unfold Slice.remove_prefix. split.
  - intros Hn. rewrite bool_decide_eq_true_2 by done.
    eexists. split; [reflexivity|]. simpl.
    repeat split. by apply load_ptr_add.
  - intros Hn. by rewrite bool_decide_eq_false_2 by lia.
Qed.

Lemma remove_prefix_spec_witness :
  let h : heap := [[x00]; list_byte_of_string "hello"] in
  let S := Slice.make (Ptr 1 0) 5 in
  view h S = Ok (list_byte_of_string "hello")
  ∧ (∃ S', Slice.remove_prefix S 2 = Ok S'
           ∧ Slice.size S' = 3
           ∧ view h S' = Ok (list_byte_of_string "llo"))
  ∧ Slice.remove_prefix S 6 = AssertionFailure.
Proof.
  intros h S. split; [reflexivity|].
  destruct (remove_prefix_spec h S 2 (list_byte_of_string "hello") eq_refl)
    as [Hin _].
  destruct (remove_prefix_spec h S 6 (list_byte_of_string "hello") eq_refl)
    as [_ Hout].
  split.
  - destruct Hin as (S' & HS' & _ & _ & Hsz & Hv); [simpl; lia|].
    exists S'. exact (conj HS' (conj Hsz Hv)).
  - apply Hout. simpl. lia.
Defined.

(** C8.  For a slice [S] designating the bytes [bs]: when [n < S.size()],
    [S[n]] returns the byte at offset [n] of the span (the assertion holds
    and the read is inside the storage); when [n >= S.size()], the outcome
    is the assertion failure, not a value. *)
Theorem operator_index_spec h S n bs :
  view h S = Ok bs →
  (n < Slice.size S →
   ∃ c, bs !! n = Some c ∧ Slice.operator_index h S n = Ok c)
  ∧ (Slice.size S ≤ n →
     Slice.operator_index h S n = AssertionFailure
     ∧ ∀ c, Slice.operator_index h S n ≠ Ok c).
Proof.
  intros HS. unfold Slice.operator_index. split.
  - intros Hn. rewrite bool_decide_eq_true_2 by done.
    destruct (load_byte_ptr_add h (data_ S) (size_ S) n bs HS Hn)
      as (c & Hc & Hload).
    exists c. split; [done|]. by result_simpl.
  - intros Hn. rewrite bool_decide_eq_false_2 by lia. by split.
Qed.

Lemma operator_index_spec_witness :
  let h : heap := [[x00]; list_byte_of_string "hello"] in
  let S := Slice.make (Ptr 1 1) 3 in
  view h S = Ok (list_byte_of_string "ell")
  ∧ (∃ c, list_byte_of_string "ell" !! 2 = Some c
          ∧ Slice.operator_index h S 2 = Ok c)
  ∧ Slice.operator_index h S 3 = AssertionFailure.
Proof.
  intros h S. split; [reflexivity|].
  destruct (operator_index_spec h S 2 (list_byte_of_string "ell") eq_refl)
    as [Hin _].
  destruct (operator_index_spec h S 3 (list_byte_of_string "ell") eq_refl)
    as [_ Hout].
  split.
  - apply Hin. simpl. lia.
  - apply Hout. simpl. lia.
Defined.

Lemma remove_prefix_view h S n bs :
  view h S = Ok bs → n ≤ size_ S →
  ∃ S', Slice.remove_prefix S n = Ok S' ∧ view h S' = Ok (drop n bs).
Proof.
  intros HS Hn. unfold Slice.remove_prefix, Slice.size.
  rewrite bool_decide_eq_true_2 by done.
  eexists. split; [reflexivity|]. by apply load_ptr_add.
Qed.

(** ** Slice: clear and starts_with *)

Lemma clear_empty (s : Slice) :
  Slice.size (Slice.clear s) = 0 ∧ Slice.empty (Slice.clear s) = true.
Proof. done. Qed.

(** [x] is a prefix of [s] exactly when the leading bytes of [s] are the
    bytes of [x]. *)
Lemma starts_with_Ok h S X s x :
  view h S = Ok s → view h X = Ok x →
  Slice.starts_with h S X
  = Ok (bool_decide (length x ≤ length s ∧ take (length x) s = x)).
Proof.
  intros HS HX. unfold Slice.starts_with.
  pose proof (view_size _ _ _ HS) as Ls.
  pose proof (view_size _ _ _ HX) as Lx.
  case_bool_decide as Hsz.
  - rewrite (memcmp_Ok h S X s x) by (done || lia).
    rewrite <- Lx, (firstn_all x). result_simpl. f_equal.
    apply bool_decide_ext. rewrite memcmp_bytes_zero.
    + intuition lia.
    + rewrite length_take. lia.
  - f_equal. symmetry. apply bool_decide_eq_false_2. lia.
Qed.

(** ** Slice_v: construction *)

Lemma to_string_parse z : parse_decimal (to_string z) = Some z.
Proof.
  unfold parse_decimal, to_string.
  rewrite string_of_list_byte_of_string, NilZero.isi.
  - simpl. by rewrite DecimalZ.of_to.
  - destruct z; simpl; try done.
    intros [= H]. by apply DecimalPos.Unsigned.to_uint_nonnil in H.
  - destruct z; simpl; try done.
    intros [= H]. by apply DecimalPos.Unsigned.to_uint_nonnil in H.
Qed.

Lemma to_string_inj z1 z2 : to_string z1 = to_string z2 → z1 = z2.
Proof.
  intros H. assert (Some z1 = Some z2) as [= ->]; [|done].
  by rewrite <- !to_string_parse, H.
Qed.

Lemma make_src s d h : Slice_v.src (Slice_v.make s d h).2 = s.
Proof. done. Qed.

Lemma make_dst s d h : Slice_v.dst (Slice_v.make s d h).2 = d.
Proof. done. Qed.

Lemma make_view s d h :
  view (Slice_v.make s d h).1 (Slice_v.make s d h).2 = Ok (encoding s d).
Proof. apply load_alloc_new. Qed.

(** Constructing a key leaves the storage that exists as it is. *)
Lemma make_load s d h p n bs :
  load h p n = Ok bs → load (Slice_v.make s d h).1 p n = Ok bs.
Proof. apply load_alloc. Qed.

Lemma make_view_other s d h (S : Slice) bs :
  view h S = Ok bs → view (Slice_v.make s d h).1 S = Ok bs.
Proof. apply make_load. Qed.

(** C9.  The key constructed from [(s, d)] has [src() == s] and
    [dst() == d]; its pointer and length are those of its own string [s_],
    a buffer that did not exist before the construction; that buffer, and so
    the bytes the key designates as a slice, hold the decimal rendering of
    [s], the character '|', and the decimal rendering of [d] (each rendering
    reads back as the number).  [Slice_v(10, 2)] has [src() == 10],
    [dst() == 2] and the encoding "10|2". *)
Theorem Slice_v_make_spec (s d : Z) (h : heap) :
  let h' := (Slice_v.make s d h).1 in
  let k := (Slice_v.make s d h).2 in
  Slice_v.src k = s
  ∧ Slice_v.dst k = d
  ∧ Slice.data k = string_data (s_ k)
  ∧ Slice.size k = string_size (s_ k)
  ∧ h !! str_buf (s_ k) = None
  ∧ h' !! str_buf (s_ k) = Some (encoding s d)
  ∧ Slice.ToString h' k = Ok (encoding s d)
  ∧ encoding s d = to_string s ++ list_byte_of_string "|" ++ to_string d
  ∧ parse_decimal (to_string s) = Some s
  ∧ parse_decimal (to_string d) = Some d
  ∧ (let k10 := (Slice_v.make 10 2 h).2 in
     Slice_v.src k10 = 10%Z
     ∧ Slice_v.dst k10 = 2%Z
     ∧ Slice.ToString (Slice_v.make 10 2 h).1 k10
       = Ok (list_byte_of_string "10|2")).
Proof.
  intros h' k.
  split; [done|]. split; [done|]. split; [done|]. split; [done|].
  split; [by apply lookup_ge_None_2|].
  split; [by apply list_lookup_middle|].
  split; [apply make_view|].
  split; [done|].
  split; [apply to_string_parse|].
  split; [apply to_string_parse|].
  split; [done|]. split; [done|].
  apply (make_view 10 2 h).
Qed.

(** ** Slice_v: ordering *)

(** C3.  [A.compare(B)] on two keys is the three-way comparison of the
    pairs (source, destination): the sources decide unless they are equal,
    then the destinations decide; the result is 0 exactly when both integers
    are equal.  A destination of -1 is compared as the integer -1.
    [Slice_v(1,5).compare(Slice_v(2,0)) < 0],
    [Slice_v(3,2).compare(Slice_v(3,5)) < 0] and
    [Slice_v(3,5).compare(Slice_v(3,5)) == 0]. *)
Theorem Slice_v_compare_spec (A B : Slice_v) :
  let r := Slice_v.compare A B in
  (r = (-1)%Z ∨ r = 0%Z ∨ r = 1%Z)
  ∧ ((Slice_v.src A < Slice_v.src B)%Z → r = (-1)%Z)
  ∧ ((Slice_v.src B < Slice_v.src A)%Z → r = 1%Z)
  ∧ (Slice_v.src A = Slice_v.src B →
     (Slice_v.dst A < Slice_v.dst B)%Z → r = (-1)%Z)
  ∧ (Slice_v.src A = Slice_v.src B →
     (Slice_v.dst B < Slice_v.dst A)%Z → r = 1%Z)
  ∧ (r = 0%Z ↔
     Slice_v.src A = Slice_v.src B ∧ Slice_v.dst A = Slice_v.dst B)
  ∧ ((r < 0)%Z ↔
     (Slice_v.src A < Slice_v.src B)%Z
     ∨ Slice_v.src A = Slice_v.src B ∧ (Slice_v.dst A < Slice_v.dst B)%Z)
  ∧ (Slice_v.src A = Slice_v.src B → Slice_v.dst A = (-1)%Z →
     (r = 0%Z ↔ Slice_v.dst B = (-1)%Z)
     ∧ ((r < 0)%Z ↔ (-1 < Slice_v.dst B)%Z))
  ∧ (∀ h : heap,
       let k15 := Slice_v.make 1 5 h in
       let k20 := Slice_v.make 2 0 k15.1 in
       let k32 := Slice_v.make 3 2 k20.1 in
       let k35 := Slice_v.make 3 5 k32.1 in
       let k35' := Slice_v.make 3 5 k35.1 in
       (Slice_v.compare k15.2 k20.2 < 0)%Z
       ∧ (Slice_v.compare k32.2 k35.2 < 0)%Z
       ∧ Slice_v.compare k35.2 k35'.2 = 0%Z
       ∧ Slice_v.compare k35.2 k35.2 = 0%Z).
Proof.
  intros r. subst r.
  unfold Slice_v.compare, Slice_v.src, Slice_v.dst.
  repeat split; intros; repeat case_bool_decide; try lia.
  all: try (destruct_and?; lia).
  all: destruct_or?; destruct_and?; lia.
Qed.

(** ** Slice_v: equality *)

Lemma operator_eq_v_true (A B : Slice_v) :
  operator_eq_v A B = true ↔
  Slice_v.src A = Slice_v.src B
  ∧ (Slice_v.dst A = Slice_v.dst B
     ∨ Slice_v.dst A = (-1)%Z
     ∨ Slice_v.dst B = (-1)%Z).
Proof.
  unfold operator_eq_v.
  rewrite andb_true_iff, !orb_true_iff, !bool_decide_eq_true. tauto.
Qed.

(** C10.  [==] on keys is reflexive, also on a key whose destination is -1,
    and symmetric. *)
Theorem operator_eq_v_reflexive_symmetric :
  (∀ A : Slice_v, operator_eq_v A A = true)
  ∧ (∀ A : Slice_v, Slice_v.dst A = (-1)%Z → operator_eq_v A A = true)
  ∧ (∀ A B : Slice_v, operator_eq_v A B = operator_eq_v B A)
  ∧ (∀ A B : Slice_v, operator_eq_v A B = true ↔ operator_eq_v B A = true)
  ∧ Reflexive Slice_v_equal
  ∧ Symmetric Slice_v_equal.
Proof.
  assert (∀ A : Slice_v, operator_eq_v A A = true) as Hrefl.
  { intros A. apply operator_eq_v_true. auto. }
  assert (∀ A B : Slice_v, operator_eq_v A B = true → operator_eq_v B A = true)
    as Hsym.
  { intros A B. rewrite !operator_eq_v_true. intuition. }
  assert (∀ A B : Slice_v, operator_eq_v A B = operator_eq_v B A) as Heq.
  { intros A B. apply eq_true_iff_eq. split; apply Hsym. }
  split; [done|]. split; [by intros A _|]. split; [done|].
  split; [intros A B; by rewrite Heq|].
  split; [exact Hrefl | exact Hsym].
Qed.

(** ** Slice_v against the byte-wise operations of its base *)

(** Two keys constructed one after the other, as slices in the final heap. *)
Lemma make_two_views s1 d1 s2 d2 h :
  let A := Slice_v.make s1 d1 h in
  let B := Slice_v.make s2 d2 A.1 in
  view B.1 A.2 = Ok (encoding s1 d1) ∧ view B.1 B.2 = Ok (encoding s2 d2).
Proof.
  intros A B. split.
  - apply make_view_other, make_view.
  - apply make_view.
Qed.

(** C6.  [==] on keys is not transitive, hence not an equivalence relation:
    with [A = Slice_v(1,5)], [B = Slice_v(1,-1)] and [C = Slice_v(1,7)],
    [A == B] and [B == C] hold and [A == C] does not ([A != C] is true). *)
Theorem operator_eq_v_not_transitive :
  (∀ h : heap,
     let A := Slice_v.make 1 5 h in
     let B := Slice_v.make 1 (-1) A.1 in
     let C := Slice_v.make 1 7 B.1 in
     operator_eq_v A.2 B.2 = true
     ∧ operator_eq_v B.2 C.2 = true
     ∧ operator_eq_v A.2 C.2 = false
     ∧ operator_ne_v C.1 A.2 C.2 = Ok true)
  ∧ ¬ Transitive Slice_v_equal
  ∧ ¬ Equivalence Slice_v_equal.
Proof.
  split.
  - intros h A B C. split; [done|]. split; [done|]. split; [done|].
    assert (view C.1 A.2 = Ok (encoding 1 5)) as HA
        by apply make_view_other, make_view_other, make_view.
    assert (view C.1 C.2 = Ok (encoding 1 7)) as HC by apply make_view.
    unfold operator_ne_v. by rewrite (operator_eq_Ok _ _ _ _ _ HA HC).
  - assert (¬ Transitive Slice_v_equal) as Hnt.
    { intros Htr.
      pose (A := (Slice_v.make 1 5 heap_init).2).
      pose (B := (Slice_v.make 1 (-1) heap_init).2).
      pose (C := (Slice_v.make 1 7 heap_init).2).
      assert (Slice_v_equal A C) as HAC
          by (apply (Htr A B C); reflexivity).
      discriminate HAC. }
    split; [done|]. intros [_ _ Htr]. by apply Hnt.
Qed.

(** C5.  The order of [Slice_v::compare] is not the order [Slice::compare]
    gives to the encodings: for sources 9 and 10, with any destinations, the
    key of source 9 compares negative to the key of source 10 as a pair of
    integers, and positive as a slice ("9|..." against "10|..."); the same
    holds the other way round with the signs exchanged. *)
Theorem Slice_v_compare_not_bytewise (d1 d2 : Z) (h : heap) :
  let A := Slice_v.make 9 d1 h in
  let B := Slice_v.make 10 d2 A.1 in
  (Slice_v.compare A.2 B.2 < 0)%Z
  ∧ (∃ r, Slice.compare B.1 A.2 B.2 = Ok r ∧ (0 < r)%Z)
  ∧ (0 < Slice_v.compare B.2 A.2)%Z
  ∧ (∃ r, Slice.compare B.1 B.2 A.2 = Ok r ∧ (r < 0)%Z).
Proof.
  intros A B.
  destruct (make_two_views 9 d1 10 d2 h) as [HA HB]. fold A B in HA, HB.
  assert (compare_bytes (encoding 9 d1) (encoding 10 d2) = 8%Z) as Hr.
  { change (encoding 9 d1) with ("9"%byte :: "|"%byte :: to_string d1).
    change (encoding 10 d2)
      with ("1"%byte :: "0"%byte :: "|"%byte :: to_string d2).
    by rewrite compare_bytes_differ. }
  split; [done|]. split; [|split; [done|]].
  - exists 8%Z. by rewrite (compare_Ok _ _ _ _ _ HA HB), Hr.
  - exists (compare_bytes (encoding 10 d2) (encoding 9 d1)).
    split; [by apply compare_Ok|].
    apply Z.gt_lt, Z.lt_gt, compare_bytes_lt_gt. by rewrite Hr.
Qed.

(** C4, where the code departs from it.  [operator!=] on keys does not
    negate [operator==] on keys: the [==] in its body is the one of [Slice]
    (see [operator_ne_v]).  For [x = Slice_v(1,-1)] and [y = Slice_v(1,7)],
    [x == y] is true by the wildcard rule and [x != y] is true as well,
    the encodings "1|-1" and "1|7" being different byte sequences. *)
Theorem operator_ne_v_not_negation (h : heap) :
  let x := Slice_v.make 1 (-1) h in
  let y := Slice_v.make 1 7 x.1 in
  operator_eq_v x.2 y.2 = true
  ∧ operator_ne_v y.1 x.2 y.2 = Ok true
  ∧ operator_ne_v y.1 x.2 y.2 ≠ Ok (negb (operator_eq_v x.2 y.2)).
Proof.
  intros x y.
  destruct (make_two_views 1 (-1) 1 7 h) as [Hx Hy]. fold x y in Hx, Hy.
  assert (operator_ne_v y.1 x.2 y.2 = Ok true) as Hne.
  { unfold operator_ne_v. by rewrite (operator_eq_Ok _ _ _ _ _ Hx Hy). }
  split; [done|]. split; [done|]. by rewrite Hne.
Qed.

(** The part of C4 the code does implement: [x == y] on keys holds exactly
    when the sources are equal and the destinations are equal or one of
    them is -1. *)
Lemma operator_eq_v_spec (A B : Slice_v) :
  (operator_eq_v A B = true ↔
   Slice_v.src A = Slice_v.src B
   ∧ (Slice_v.dst A = Slice_v.dst B
      ∨ Slice_v.dst A = (-1)%Z
      ∨ Slice_v.dst B = (-1)%Z))
  ∧ (∀ h : heap,
       let k1w := Slice_v.make 1 (-1) h in
       let k17 := Slice_v.make 1 7 k1w.1 in
       let k27 := Slice_v.make 2 7 k17.1 in
       let k18 := Slice_v.make 1 8 k27.1 in
       operator_eq_v k1w.2 k17.2 = true
       ∧ operator_eq_v k17.2 k27.2 = false
       ∧ operator_eq_v k17.2 k18.2 = false).
Proof. split; [apply operator_eq_v_true | done]. Qed.

(** *** When [!=] on keys does negate [==] on keys *)

Lemma list_byte_of_string_cons c s :
  list_byte_of_string (String c s)
  = Ascii.byte_of_ascii c :: list_byte_of_string s.
Proof. reflexivity. Qed.

Lemma digits_no_bar (d : Decimal.uint) :
  "|"%byte ∉ list_byte_of_string (NilEmpty.string_of_uint d).
Proof.
  induction d; simpl; rewrite ?list_byte_of_string_cons, ?not_elem_of_cons;
    [apply not_elem_of_nil | by split..].
Qed.

Lemma to_string_no_bar z : "|"%byte ∉ to_string z.
Proof.
  unfold to_string, NilZero.string_of_int, NilZero.string_of_uint.
  destruct (Z.to_int z) as [d|d].
  - destruct d; try apply digits_no_bar.
    rewrite list_byte_of_string_cons, not_elem_of_cons.
    split; [done | apply not_elem_of_nil].
  - rewrite list_byte_of_string_cons, not_elem_of_cons. split; [done|].
    destruct d; try apply digits_no_bar.
    rewrite list_byte_of_string_cons, not_elem_of_cons.
    split; [done | apply not_elem_of_nil].
Qed.

Lemma app_cons_inj {A} (x : A) (l1 r1 l2 r2 : list A) :
  x ∉ l1 → x ∉ l2 → l1 ++ x :: r1 = l2 ++ x :: r2 → l1 = l2 ∧ r1 = r2.
Proof.
  revert l2. induction l1 as [|y l1 IH]; intros [|z l2] H1 H2; simpl.
  - by intros [= ->].
  - intros [= -> _]. destruct H2. left.
  - intros [= -> _]. destruct H1. left.
  - intros [= -> Heq].
    rewrite not_elem_of_cons in H1, H2.
    destruct (IH l2) as [-> ->]; tauto || done.
Qed.

(** The encoding determines the pair. *)
Lemma encoding_inj s1 d1 s2 d2 :
  encoding s1 d1 = encoding s2 d2 → s1 = s2 ∧ d1 = d2.
Proof.
  intros H. apply app_cons_inj in H as [Hs Hd]; auto using to_string_no_bar.
  split; by apply to_string_inj.
Qed.

(** On two constructed keys, [x != y] is true exactly when the pairs
    differ; it is the negation of [x == y] except when the sources are
    equal, the destinations differ and one destination is -1. *)
Lemma operator_ne_v_make s1 d1 s2 d2 h :
  let x := Slice_v.make s1 d1 h in
  let y := Slice_v.make s2 d2 x.1 in
  operator_ne_v y.1 x.2 y.2 = Ok (negb (bool_decide (s1 = s2 ∧ d1 = d2)))
  ∧ (operator_ne_v y.1 x.2 y.2 = Ok (negb (operator_eq_v x.2 y.2)) ↔
     ¬ (s1 = s2 ∧ d1 ≠ d2 ∧ (d1 = (-1)%Z ∨ d2 = (-1)%Z))).
Proof.
  intros x y.
  destruct (make_two_views s1 d1 s2 d2 h) as [Hx Hy]. fold x y in Hx, Hy.
  assert (operator_ne_v y.1 x.2 y.2
          = Ok (negb (bool_decide (s1 = s2 ∧ d1 = d2)))) as Hne.
  { unfold operator_ne_v. rewrite (operator_eq_Ok _ _ _ _ _ Hx Hy).
    result_simpl. do 2 f_equal. apply bool_decide_ext. split.
    - apply encoding_inj.
    - by intros [-> ->]. }
  split; [done|]. rewrite Hne.
  unfold operator_eq_v, Slice_v.src, Slice_v.dst. simpl.
  split.
  - intros [= Heq] (-> & Hd & Hw).
    rewrite bool_decide_eq_false_2 in Heq by tauto.
    rewrite (bool_decide_eq_true_2 (s2 = s2)) in Heq by done.
    rewrite (bool_decide_eq_false_2 (d1 = d2)) in Heq by done.
    destruct Hw as [Hw|Hw];
      rewrite (bool_decide_eq_true_2 _ Hw) in Heq; simpl in Heq;
      try rewrite orb_true_r in Heq; done.
  - intros Hn. do 2 f_equal.
    repeat case_bool_decide; simpl; try done; exfalso; tauto || lia.
Qed.

(** * Further properties of the header *)

Lemma starts_with_bool h S X s x :
  view h S = Ok s → view h X = Ok x →
  ∃ b, Slice.starts_with h S X = Ok b ∧ (b = true ↔ ∃ t, s = x ++ t).
Proof.
  intros HS HX. eexists. split; [by apply starts_with_Ok|].
  rewrite bool_decide_eq_true. split.
  - intros [_ Ht]. exists (drop (length x) s).
    by rewrite <- Ht at 1; rewrite take_drop.
  - intros [t ->]. rewrite length_app. split; [lia|].
    by rewrite take_app_length.
Qed.

Lemma starts_with_true h S X s x :
  view h S = Ok s → view h X = Ok x →
  Slice.starts_with h S X = Ok true ↔ ∃ t, s = x ++ t.
Proof.
  intros HS HX.
  destruct (starts_with_bool h S X s x HS HX) as (b & Hb & Hiff).
  rewrite Hb, <- Hiff. split; [by intros [= ->] | by intros ->].
Qed.

(** ** starts_with *)

(** [S.starts_with(X)] returns, and returns true exactly when the bytes of
    [S] are the bytes of [X] followed by some (possibly no) bytes; when [X]
    is longer than [S] the answer is false. *)
Theorem starts_with_prefix h S X s x :
  view h S = Ok s → view h X = Ok x →
  ∃ b, Slice.starts_with h S X = Ok b
       ∧ (b = true ↔ ∃ t, s = x ++ t)
       ∧ (Slice.size S < Slice.size X → b = false).
Proof.
  intros HS HX.
  pose proof (view_size _ _ _ HS) as Ls.
  pose proof (view_size _ _ _ HX) as Lx.
  destruct (starts_with_bool h S X s x HS HX) as (b & Hb & Hiff).
  exists b. split; [done|]. split; [done|].
  unfold Slice.size. intros Hlt.
  destruct b; [|done]. destruct Hiff as [[t ->] _]; [done|].
  rewrite length_app in Ls. lia.
Qed.

Lemma starts_with_prefix_witness :
  let h : heap := [[x00]; list_byte_of_string "hello"] in
  let S := Slice.make (Ptr 1 0) 5 in
  let X := Slice.make (Ptr 1 0) 2 in
  view h S = Ok (list_byte_of_string "hello")
  ∧ view h X = Ok (list_byte_of_string "he")
  ∧ ∃ b, Slice.starts_with h S X = Ok b
         ∧ (b = true ↔
            ∃ t, list_byte_of_string "hello" = list_byte_of_string "he" ++ t).
Proof.
  intros h S X. split; [reflexivity|]. split; [reflexivity|].
  destruct (starts_with_prefix h S X (list_byte_of_string "hello")
              (list_byte_of_string "he") eq_refl eq_refl)
    as (b & Hb & Hiff & _).
  exists b. exact (conj Hb Hiff).
Defined.

(** After [S.starts_with(X)] has answered true, [S.remove_prefix(X.size())]
    passes its assertion, and the bytes of [S] before the call are the bytes
    of [X] followed by the bytes of [S] after it. *)
Theorem starts_with_remove_prefix h S X s x :
  view h S = Ok s → view h X = Ok x →
  Slice.starts_with h S X = Ok true →
  ∃ S' t, Slice.remove_prefix S (Slice.size X) = Ok S'
          ∧ view h S' = Ok t
          ∧ s = x ++ t.
Proof.
  intros HS HX Hsw.
  pose proof (view_size _ _ _ HX) as Lx.
  apply (starts_with_true h S X s x HS HX) in Hsw as [t ->].
  pose proof (view_size _ _ _ HS) as Ls. rewrite length_app in Ls.
  destruct (remove_prefix_view h S (Slice.size X) (x ++ t) HS)
    as (S' & HS' & Hv); [unfold Slice.size; lia|].
  exists S', t. split; [done|]. split; [|done].
  rewrite Hv. unfold Slice.size. by rewrite <- Lx, drop_app_length.
Qed.

Lemma starts_with_remove_prefix_witness :
  let h : heap := [[x00]; list_byte_of_string "hello"; list_byte_of_string "he"] in
  let S := Slice.make (Ptr 1 0) 5 in
  let X := Slice.make (Ptr 2 0) 2 in
  view h S = Ok (list_byte_of_string "hello")
  ∧ view h X = Ok (list_byte_of_string "he")
  ∧ Slice.starts_with h S X = Ok true
  ∧ ∃ S' t, Slice.remove_prefix S (Slice.size X) = Ok S'
            ∧ view h S' = Ok t
            ∧ list_byte_of_string "hello" = list_byte_of_string "he" ++ t.
Proof.
  intros h S X.
  split; [reflexivity|]. split; [reflexivity|]. split; [reflexivity|].
  exact (starts_with_remove_prefix h S X (list_byte_of_string "hello")
           (list_byte_of_string "he") eq_refl eq_refl eq_refl).
Defined.

(** A prefix sorts first: after [S.starts_with(X)] has answered true,
    [X.compare(S)] is not positive and [S.compare(X)] is not negative, and
    each is 0 exactly when the two sizes are equal. *)
Theorem starts_with_compare h S X s x :
  view h S = Ok s → view h X = Ok x →
  Slice.starts_with h S X = Ok true →
  ∃ r r', Slice.compare h X S = Ok r
          ∧ Slice.compare h S X = Ok r'
          ∧ (r ≤ 0)%Z ∧ (0 ≤ r')%Z
          ∧ (r = 0%Z ↔ Slice.size X = Slice.size S)
          ∧ (r' = 0%Z ↔ Slice.size X = Slice.size S).
Proof.
  intros HS HX Hsw.
  pose proof (view_size _ _ _ HX) as Lx.
  apply (starts_with_true h S X s x HS HX) in Hsw as [t ->].
  pose proof (view_size _ _ _ HS) as Ls. rewrite length_app in Ls.
  exists (compare_bytes x (x ++ t)), (compare_bytes (x ++ t) x).
  split; [by apply compare_Ok|]. split; [by apply compare_Ok|].
  unfold Slice.size. rewrite !compare_bytes_zero.
  destruct t as [|c t].
  - simpl in Ls. rewrite app_nil_r in *. rewrite compare_bytes_refl.
    repeat split; done || lia.
  - assert (compare_bytes x (x ++ c :: t) < 0)%Z as Hlt.
    { rewrite <- Z.compare_lt_iff.
      by rewrite compare_bytes_sign, lex_compare_prefix. }
    pose proof Hlt as Hgt. apply compare_bytes_lt_gt in Hgt.
    simpl in Ls.
    repeat split; try lia.
    + intros Heq. apply (f_equal length) in Heq.
      rewrite length_app in Heq. simpl in Heq. lia.
    + intros Heq. apply (f_equal length) in Heq.
      rewrite length_app in Heq. simpl in Heq. lia.
Qed.

Lemma starts_with_compare_witness :
  let h : heap := [[x00]; list_byte_of_string "hello"; list_byte_of_string "he"] in
  let S := Slice.make (Ptr 1 0) 5 in
  let X := Slice.make (Ptr 2 0) 2 in
  view h S = Ok (list_byte_of_string "hello")
  ∧ view h X = Ok (list_byte_of_string "he")
  ∧ Slice.starts_with h S X = Ok true
  ∧ ∃ r r', Slice.compare h X S = Ok r
            ∧ Slice.compare h S X = Ok r'
            ∧ (r ≤ 0)%Z ∧ (0 ≤ r')%Z.
Proof.
  intros h S X.
  split; [reflexivity|]. split; [reflexivity|]. split; [reflexivity|].
  destruct (starts_with_compare h S X (list_byte_of_string "hello")
              (list_byte_of_string "he") eq_refl eq_refl eq_refl)
    as (r & r' & Hr & Hr' & Hle & Hge & _).
  exists r, r'. exact (conj Hr (conj Hr' (conj Hle Hge))).
Defined.

(** ** operator== and operator!= on slices *)

(** [A != B] returns the negation of [A == B], it is true exactly when the
    bytes differ, and [A == B] holds exactly when each of the two slices
    starts with the other. *)
Theorem operator_ne_spec h A B a b :
  view h A = Ok a → view h B = Ok b →
  ∃ e n p q,
    operator_eq h A B = Ok e
    ∧ operator_ne h A B = Ok n
    ∧ Slice.starts_with h A B = Ok p
    ∧ Slice.starts_with h B A = Ok q
    ∧ n = negb e
    ∧ (n = true ↔ a ≠ b)
    ∧ e = p && q.
Proof.
  intros HA HB.
  exists (bool_decide (a = b)), (negb (bool_decide (a = b))).
  destruct (starts_with_bool h A B a b HA HB) as (p & Hp & Hpi).
  destruct (starts_with_bool h B A b a HB HA) as (q & Hq & Hqi).
  exists p, q.
  split; [by apply operator_eq_Ok|].
  split; [unfold operator_ne; by rewrite (operator_eq_Ok _ _ _ _ _ HA HB)|].
  split; [done|]. split; [done|]. split; [done|]. split.
  - rewrite negb_true_iff, bool_decide_eq_false. done.
  - apply eq_true_iff_eq.
    rewrite andb_true_iff, bool_decide_eq_true, Hpi, Hqi. split.
    + intros ->. split; exists []; by rewrite app_nil_r.
    + intros [[t ->] [t' Ht']].
      apply (f_equal length) in Ht' as Hlen. rewrite !length_app in Hlen.
      destruct t; [by rewrite app_nil_r|]. simpl in Hlen. lia.
Qed.

Lemma operator_ne_spec_witness :
  let h : heap := [[x00]; list_byte_of_string "hello"] in
  let A := Slice.make (Ptr 1 0) 2 in
  let B := Slice.make (Ptr 1 2) 2 in
  view h A = Ok (list_byte_of_string "he")
  ∧ view h B = Ok (list_byte_of_string "ll")
  ∧ ∃ e n, operator_eq h A B = Ok e ∧ operator_ne h A B = Ok n ∧ n = negb e.
Proof.
  intros h A B. split; [reflexivity|]. split; [reflexivity|].
  destruct (operator_ne_spec h A B (list_byte_of_string "he")
              (list_byte_of_string "ll") eq_refl eq_refl)
    as (e & n & _ & _ & He & Hn & _ & _ & Hneg & _).
  exists e, n. exact (conj He (conj Hn Hneg)).
Defined.

(** ** clear and the empty slice *)

Lemma has_literal_alloc h bs : has_literal h → has_literal (alloc bs h).1.
Proof. unfold has_literal. simpl. intros H. by apply lookup_app_l_Some. Qed.

Lemma view_empty h : has_literal h → view h Slice.make_empty = Ok [].
Proof.
  intros H.
  apply (load_Ok_intro h empty_literal 0 [x00] H). simpl. lia.
Qed.

(** In a heap that holds the string literal, [S.clear()] leaves the slice
    that [Slice()] and [Slice("")] construct, whatever [S] was: it
    designates no byte, every slice starts with it, it is equal to a slice
    exactly when that slice is empty, it sorts before every non-empty
    slice, and indexing it at any position fails the assertion. *)
Theorem clear_spec h S T t n :
  has_literal h → view h T = Ok t →
  Slice.clear S = Slice.make_empty
  ∧ Slice.of_cstr h empty_literal = Ok (Slice.clear S)
  ∧ Slice.empty (Slice.clear S) = true
  ∧ Slice.ToString h (Slice.clear S) = Ok []
  ∧ Slice.starts_with h T (Slice.clear S) = Ok true
  ∧ operator_eq h (Slice.clear S) T = Ok (Slice.empty T)
  ∧ (∃ r, Slice.compare h (Slice.clear S) T = Ok r
          ∧ (r ≤ 0)%Z
          ∧ (r = 0%Z ↔ Slice.empty T = true))
  ∧ Slice.operator_index h (Slice.clear S) n = AssertionFailure.
Proof.
  intros Hlit HT.
  pose proof (view_size _ _ _ HT) as Lt.
  pose proof (view_empty h Hlit) as HE.
  assert (Slice.empty T = bool_decide (t = [])) as Hempty.
  { unfold Slice.empty. apply bool_decide_ext. rewrite <- Lt.
    split; [apply nil_length_inv | by intros ->]. }
  split; [done|].
  split.
  { unfold Slice.of_cstr, strlen. unfold has_literal in Hlit.
    by rewrite Hlit. }
  split; [done|]. split; [done|].
  change (Slice.clear S) with Slice.make_empty.
  split.
  { apply (starts_with_true h T Slice.make_empty t [] HT HE). by exists t. }
  split.
  { rewrite (operator_eq_Ok _ _ _ _ _ HE HT), Hempty. f_equal.
    apply bool_decide_ext. split; by intros ->. }
  split; [|done].
  exists (compare_bytes [] t). split; [by apply compare_Ok|].
  rewrite compare_bytes_zero, Hempty, bool_decide_eq_true.
  destruct t as [|c t]; [done|]. split; [done|]. split; done.
Qed.

Lemma clear_spec_witness :
  let h : heap := [[x00]; list_byte_of_string "hello"] in
  let S := Slice.make (Ptr 1 0) 5 in
  let T := Slice.make (Ptr 1 1) 3 in
  has_literal h
  ∧ view h T = Ok (list_byte_of_string "ell")
  ∧ Slice.starts_with h T (Slice.clear S) = Ok true
  ∧ operator_eq h (Slice.clear S) T = Ok false
  ∧ Slice.operator_index h (Slice.clear S) 0 = AssertionFailure.
Proof.
  intros h S T. split; [reflexivity|]. split; [reflexivity|].
  destruct (clear_spec h S T (list_byte_of_string "ell") 0 eq_refl eq_refl)
    as (_ & _ & _ & _ & Hsw & Heq & _ & Hidx).
  exact (conj Hsw (conj Heq Hidx)).
Defined.

(** ** ToString and the slice of a string *)

(** [std::string copy = S.ToString(); Slice S2(copy);]: the string holds the
    bytes of [S] in a buffer of its own, the slice of it has the size of [S]
    and the same bytes, it is [==] to [S] and compares 0 with it, and [S]
    still designates its bytes. *)
Theorem ToString_of_string_roundtrip h S bs :
  Slice.ToString h S = Ok bs →
  let h' := (string_new bs h).1 in
  let S2 := Slice.of_string (string_new bs h).2 in
  Slice.ToString h' S2 = Ok bs
  ∧ Slice.ToString h' S = Ok bs
  ∧ Slice.size S2 = Slice.size S
  ∧ blk (Slice.data S2) ≠ blk (Slice.data S)
  ∧ operator_eq h' S S2 = Ok true
  ∧ Slice.compare h' S S2 = Ok 0%Z.
Proof.
  intros HS h' S2.
  assert (view h' S2 = Ok bs) as H2 by apply load_alloc_new.
  assert (view h' S = Ok bs) as H1 by by apply load_alloc.
  split; [done|]. split; [done|].
  split; [apply (load_length _ _ _ _ HS)|].
  split.
  { apply load_Ok_inv in HS as (buf & Hb%lookup_lt_Some & _).
    unfold Slice.data. simpl. lia. }
  split.
  - rewrite (operator_eq_Ok _ _ _ _ _ H1 H2). by rewrite bool_decide_eq_true_2.
  - by rewrite (compare_Ok _ _ _ _ _ H1 H2), compare_bytes_refl.
Qed.

Lemma ToString_of_string_roundtrip_witness :
  let h : heap := [[x00]; list_byte_of_string "hello"] in
  let S := Slice.make (Ptr 1 1) 3 in
  let bs := list_byte_of_string "ell" in
  Slice.ToString h S = Ok bs
  ∧ Slice.ToString (string_new bs h).1 (Slice.of_string (string_new bs h).2)
    = Ok bs
  ∧ operator_eq (string_new bs h).1 S (Slice.of_string (string_new bs h).2)
    = Ok true.
Proof.
  intros h S bs. split; [reflexivity|].
  destruct (ToString_of_string_roundtrip h S bs eq_refl)
    as (H2 & _ & _ & _ & Heq & _).
  exact (conj H2 Heq).
Defined.

(** ** The slice of a C string *)

Lemma strlen_bytes_app bs rest :
  x00 ∉ bs → strlen_bytes (bs ++ (x00 :: rest)) = Some (length bs).
Proof.
  induction bs as [|c bs IH]; simpl; [done|].
  rewrite not_elem_of_cons. intros [Hc Hbs].
  rewrite byte_eqb_false by done. by rewrite IH.
Qed.

Lemma strlen_bytes_None l : x00 ∉ l → strlen_bytes l = None.
Proof.
  induction l as [|c l IH]; simpl; [done|].
  rewrite not_elem_of_cons. intros [Hc Hl].
  rewrite byte_eqb_false by done. by rewrite IH.
Qed.

Lemma strlen_bytes_Some l n :
  strlen_bytes l = Some n →
  ∃ bs rest, l = bs ++ (x00 :: rest) ∧ (x00 ∉ bs) ∧ length bs = n.
Proof.
  revert n. induction l as [|c l IH]; intros n; simpl; [done|].
  destruct (Byte.eqb c x00) eqn:E.
  - apply Byte.byte_dec_bl in E as ->. intros [= <-].
    exists [], l. split; [done|]. split; [apply not_elem_of_nil | done].
  - apply Byte.eqb_false in E.
    destruct (strlen_bytes l) as [m|]; simpl; [|done]. intros [= <-].
    destruct (IH m eq_refl) as (bs & rest & -> & Hbs & <-).
    exists (c :: bs), rest. split; [done|]. split; [|done].
    rewrite not_elem_of_cons. split; [congruence | done].
Qed.

(** [Slice(const char* s)], for [s] pointing into a buffer.  When the bytes
    from [s] on are [bs], a NUL, and whatever follows, with no NUL in [bs],
    the slice starts at [s] and designates [bs].  When no NUL follows in the
    buffer there is no slice: the scan leaves the storage.  Whenever a slice
    is returned, it designates bytes with no NUL among them, and the byte
    just after it is a NUL. *)
Theorem of_cstr_spec h p buf :
  h !! blk p = Some buf →
  (∀ bs rest,
      drop (off p) buf = bs ++ (x00 :: rest) → x00 ∉ bs →
      ∃ S, Slice.of_cstr h p = Ok S
           ∧ Slice.data S = p
           ∧ Slice.size S = length bs
           ∧ view h S = Ok bs)
  ∧ (x00 ∉ drop (off p) buf → Slice.of_cstr h p = Undefined)
  ∧ (∀ S, Slice.of_cstr h p = Ok S →
          ∃ bs, view h S = Ok bs
                ∧ (x00 ∉ bs)
                ∧ load_byte h (ptr_add p (Slice.size S)) = Ok x00).
Proof.
  intros Hb.
  assert (∀ bs rest,
            drop (off p) buf = bs ++ (x00 :: rest) →
            view h {| data_ := p; size_ := length bs |} = Ok bs
            ∧ load_byte h (ptr_add p (length bs)) = Ok x00) as Hview.
  { intros bs rest Hd. split.
    - unfold view. simpl.
      rewrite (load_Ok_intro h p (length bs) buf Hb).
      + by rewrite Hd, take_app_length.
      + apply (f_equal length) in Hd.
        rewrite length_drop, length_app in Hd. simpl in Hd. lia.
    - unfold load_byte. simpl. rewrite Hb, <- lookup_drop, Hd.
      by rewrite list_lookup_middle. }
  unfold Slice.of_cstr, strlen. rewrite Hb.
  split; [|split].
  - intros bs rest Hd Hbs. rewrite Hd, strlen_bytes_app by done.
    eexists. split; [reflexivity|]. split; [done|]. split; [done|].
    by apply (Hview bs rest).
  - intros Hno. by rewrite strlen_bytes_None.
  - intros S. destruct (strlen_bytes (drop (off p) buf)) as [n|] eqn:E;
      [|done].
    intros [= <-].
    apply strlen_bytes_Some in E as (bs & rest & Hd & Hbs & <-).
    exists bs. destruct (Hview bs rest Hd) as [Hv Hz]. done.
Qed.

Lemma of_cstr_spec_witness :
  let h : heap := [[x00]; list_byte_of_string "he" ++ (x00 :: list_byte_of_string "llo")] in
  h !! 1 = Some (list_byte_of_string "he" ++ (x00 :: list_byte_of_string "llo"))
  ∧ (∃ S, Slice.of_cstr h (Ptr 1 0) = Ok S
          ∧ Slice.size S = 2
          ∧ view h S = Ok (list_byte_of_string "he"))
  ∧ Slice.of_cstr h (Ptr 1 3) = Undefined.
Proof.
  intros h. split; [reflexivity|].
  destruct (of_cstr_spec h (Ptr 1 0) _ eq_refl) as (Hfound & _ & _).
  destruct (of_cstr_spec h (Ptr 1 3) _ eq_refl) as (_ & Hnone & _).
  split.
  - destruct (Hfound (list_byte_of_string "he") (list_byte_of_string "llo"))
      as (S & HS & _ & Hsz & Hv); [reflexivity | |].
    + apply (bool_decide_unpack _). vm_compute. exact I.
    + exists S. exact (conj HS (conj Hsz Hv)).
  - apply Hnone. apply (bool_decide_unpack _). vm_compute. exact I.
Defined.

(** ** remove_prefix, repeated and followed by indexing *)

Lemma ptr_add_add p n m : ptr_add (ptr_add p n) m = ptr_add p (n + m).
Proof. unfold ptr_add. simpl. f_equal. lia. Qed.

(** Dropping [n] bytes and then [m] bytes is dropping [n + m] bytes, when
    the slice has that many; dropping all of its bytes leaves an empty
    slice; and after dropping [n] bytes, indexing at [i] is indexing the
    original slice at [n + i], with the same outcome also when the index is
    out of range. *)
Theorem remove_prefix_compose h S n m :
  n + m ≤ Slice.size S →
  ∃ S1 S2 E,
    Slice.remove_prefix S n = Ok S1
    ∧ Slice.remove_prefix S1 m = Ok S2
    ∧ Slice.remove_prefix S (n + m) = Ok S2
    ∧ Slice.remove_prefix S (Slice.size S) = Ok E
    ∧ Slice.empty E = true
    ∧ ∀ i, Slice.operator_index h S1 i = Slice.operator_index h S (n + i).
Proof.
  unfold Slice.size. intros Hnm.
  exists {| data_ := ptr_add (data_ S) n; size_ := size_ S - n |},
         {| data_ := ptr_add (data_ S) (n + m); size_ := size_ S - (n + m) |},
         {| data_ := ptr_add (data_ S) (size_ S); size_ := size_ S - size_ S |}.
  unfold Slice.remove_prefix, Slice.size. simpl.
  rewrite !bool_decide_eq_true_2 by lia.
  split; [done|]. split.
  { result_simpl. by rewrite ptr_add_add, Nat.sub_add_distr. }
  split; [done|]. split; [done|].
  split; [unfold Slice.empty; simpl; apply bool_decide_eq_true_2; lia|].
  intros i. unfold Slice.operator_index, Slice.size. simpl.
  rewrite ptr_add_add.
  destruct (decide (n + i < size_ S)) as [Hlt|Hge].
  - by rewrite !bool_decide_eq_true_2 by lia.
  - by rewrite !bool_decide_eq_false_2 by lia.
Qed.

Lemma remove_prefix_compose_witness :
  let h : heap := [[x00]; list_byte_of_string "hello"] in
  let S := Slice.make (Ptr 1 0) 5 in
  ∃ S1 S2,
    Slice.remove_prefix S 1 = Ok S1
    ∧ Slice.remove_prefix S1 2 = Ok S2
    ∧ Slice.remove_prefix S 3 = Ok S2
    ∧ Slice.operator_index h S1 3 = Slice.operator_index h S 4.
Proof.
  intros h S.
  destruct (remove_prefix_compose h S 1 2) as (S1 & S2 & E & H1 & H2 & H3 & _ & _ & Hi);
    [simpl; lia|].
  exists S1, S2. exact (conj H1 (conj H2 (conj H3 (Hi 3)))).
Defined.

(** ** The order of Slice_v::compare *)

Lemma Slice_v_compare_lt (A B : Slice_v) :
  (Slice_v.compare A B < 0)%Z ↔
  (src_ A < src_ B)%Z ∨ src_ A = src_ B ∧ (dst_ A < dst_ B)%Z.
Proof. unfold Slice_v.compare. repeat case_bool_decide; lia. Qed.

Lemma Slice_v_compare_zero (A B : Slice_v) :
  Slice_v.compare A B = 0%Z ↔ src_ A = src_ B ∧ dst_ A = dst_ B.
Proof. unfold Slice_v.compare. repeat case_bool_decide; lia. Qed.

(** [Slice_v::compare] is a consistent three-way comparison: exchanging the
    operands negates the result; "compares negative" is irreflexive and
    transitive; two keys compare negative one way or the other unless both
    their integers are equal; and keys that compare 0 compare alike with
    every third key. *)
Theorem Slice_v_compare_strict_order (A B C : Slice_v) :
  Slice_v.compare B A = (- Slice_v.compare A B)%Z
  ∧ ¬ (Slice_v.compare A A < 0)%Z
  ∧ ((Slice_v.compare A B < 0)%Z → (Slice_v.compare B C < 0)%Z →
     (Slice_v.compare A C < 0)%Z)
  ∧ ((Slice_v.compare A B < 0)%Z
     ∨ (Slice_v.src A = Slice_v.src B ∧ Slice_v.dst A = Slice_v.dst B)
     ∨ (Slice_v.compare B A < 0)%Z)
  ∧ (Slice_v.compare A B = 0%Z →
     Slice_v.compare A C = Slice_v.compare B C).
Proof.
  split; [unfold Slice_v.compare; repeat case_bool_decide; lia|].
  unfold Slice_v.src, Slice_v.dst.
  rewrite !Slice_v_compare_lt, Slice_v_compare_zero.
  split; [lia|]. split; [lia|]. split; [lia|].
  intros [Hs Hd]. unfold Slice_v.compare. by rewrite Hs, Hd.
Qed.

(** ** Equality and order on keys *)

(** Keys that compare 0 are [==].  The converse fails in one case only:
    [A == B] with [A.compare(B) != 0] happens exactly when the sources are
    equal, the destinations differ and one of them is -1.  So a key with
    destination -1 is [==] to keys it does not compare 0 with: for
    instance it is [==] to two keys the order separates. *)
Theorem operator_eq_v_vs_compare (A B : Slice_v) :
  (Slice_v.compare A B = 0%Z → operator_eq_v A B = true)
  ∧ (operator_eq_v A B = true ∧ Slice_v.compare A B ≠ 0%Z ↔
     Slice_v.src A = Slice_v.src B
     ∧ Slice_v.dst A ≠ Slice_v.dst B
     ∧ (Slice_v.dst A = (-1)%Z ∨ Slice_v.dst B = (-1)%Z))
  ∧ (operator_eq_v A B = true → Slice_v.dst A ≠ (-1)%Z →
     Slice_v.dst B ≠ (-1)%Z → Slice_v.compare A B = 0%Z)
  ∧ (∀ W : Slice_v,
       Slice_v.dst W = (-1)%Z → Slice_v.src W = Slice_v.src A →
       Slice_v.src W = Slice_v.src B →
       operator_eq_v W A = true ∧ operator_eq_v W B = true).
Proof.
  rewrite operator_eq_v_true, Slice_v_compare_zero.
  unfold Slice_v.src, Slice_v.dst.
  split; [intuition|]. split; [intuition (try lia)|]. split; [intuition|].
  intros W Hd HA HB. rewrite !operator_eq_v_true.
  unfold Slice_v.src, Slice_v.dst. auto.
Qed.

(** ** Constructed keys as slices *)

(** For two keys built by [Slice_v(int, int)], the byte-wise operations of
    the base agree with the pairs on equality: [==] of [Slice] is true
    exactly when both integers are equal, and [Slice::compare] returns 0
    exactly when [Slice_v::compare] does.  (The two orders differ in sign
    only, as for 9 and 10.) *)
Theorem constructed_keys_bytewise_equality s1 d1 s2 d2 (h : heap) :
  let x := Slice_v.make s1 d1 h in
  let y := Slice_v.make s2 d2 x.1 in
  operator_eq y.1 x.2 y.2 = Ok (bool_decide (s1 = s2 ∧ d1 = d2))
  ∧ ∃ r, Slice.compare y.1 x.2 y.2 = Ok r
         ∧ (r = 0%Z ↔ s1 = s2 ∧ d1 = d2)
         ∧ (r = 0%Z ↔ Slice_v.compare x.2 y.2 = 0%Z).
Proof.
  intros x y.
  destruct (make_two_views s1 d1 s2 d2 h) as [Hx Hy]. fold x y in Hx, Hy.
  assert (encoding s1 d1 = encoding s2 d2 ↔ s1 = s2 ∧ d1 = d2) as Henc.
  { split; [apply encoding_inj | by intros [-> ->]]. }
  split.
  - rewrite (operator_eq_Ok _ _ _ _ _ Hx Hy). f_equal.
    by apply bool_decide_ext.
  - exists (compare_bytes (encoding s1 d1) (encoding s2 d2)).
    split; [by apply compare_Ok|].
    rewrite compare_bytes_zero, Slice_v_compare_zero. done.
Qed.

(** ** The default key *)

(** [Slice_v()] in a heap that holds the string literal: both integers are
    0 and, as a slice, the key is the empty slice, pointing at the literal
    and not at its own string.  Against [Slice_v(0, 0)] it is [==] and
    compares 0 as a key, while as slices the two differ: the byte-wise [==]
    is false, [!=] on keys is true, and [Slice::compare] is negative. *)
Theorem Slice_v_make_empty_spec (h : heap) :
  has_literal h →
  let k := Slice_v.make_empty h in
  let z := Slice_v.make 0 0 k.1 in
  Slice_v.src k.2 = 0%Z
  ∧ Slice_v.dst k.2 = 0%Z
  ∧ Slice.empty k.2 = true
  ∧ Slice.ToString k.1 k.2 = Ok []
  ∧ Slice.data k.2 = empty_literal
  ∧ Slice.data k.2 ≠ string_data (s_ k.2)
  ∧ operator_eq_v k.2 z.2 = true
  ∧ Slice_v.compare k.2 z.2 = 0%Z
  ∧ operator_eq z.1 k.2 z.2 = Ok false
  ∧ operator_ne_v z.1 k.2 z.2 = Ok true
  ∧ ∃ r, Slice.compare z.1 k.2 z.2 = Ok r ∧ (r < 0)%Z.
Proof.
  intros Hlit k z.
  assert (has_literal k.1) as Hlit1 by by apply has_literal_alloc.
  assert (has_literal z.1) as Hlit2 by by apply has_literal_alloc.
  assert (view z.1 k.2 = Ok []) as Hk by by apply view_empty.
  assert (view z.1 z.2 = Ok (encoding 0 0)) as Hz by apply make_view.
  split; [done|]. split; [done|]. split; [done|].
  split; [by apply view_empty|]. split; [done|].
  split.
  { unfold Slice.data, string_data, empty_literal. simpl.
    apply lookup_lt_Some in Hlit. simpl in Hlit. intros [= Heq]. lia. }
  split; [done|]. split; [done|].
  assert (operator_eq z.1 k.2 z.2 = Ok false) as Heq
      by by rewrite (operator_eq_Ok _ _ _ _ _ Hk Hz).
  split; [done|].
  split; [unfold operator_ne_v; by rewrite Heq|].
  eexists. split; [by apply compare_Ok|]. done.
Qed.

Lemma Slice_v_make_empty_spec_witness :
  has_literal heap_init
  ∧ Slice.ToString (Slice_v.make_empty heap_init).1
      (Slice_v.make_empty heap_init).2 = Ok []
  ∧ operator_eq_v (Slice_v.make_empty heap_init).2
      (Slice_v.make 0 0 (Slice_v.make_empty heap_init).1).2 = true
  ∧ operator_ne_v (Slice_v.make 0 0 (Slice_v.make_empty heap_init).1).1
      (Slice_v.make_empty heap_init).2
      (Slice_v.make 0 0 (Slice_v.make_empty heap_init).1).2 = Ok true.
Proof.
  split; [reflexivity|].
  destruct (Slice_v_make_empty_spec heap_init eq_refl)
    as (_ & _ & _ & Hts & _ & _ & Heq & _ & _ & Hne & _).
  exact (conj Hts (conj Heq Hne)).
Defined.

(** ** Copies of a key *)

(** A copy of a key built by [Slice_v(s, d)]: the copy has the two integers
    and a string of its own with the same text, and as a slice it
    designates the same bytes; but its pointer is the pointer of the
    original, into the string of the original, and not into its own
    string.  The copy is [==] to the original and compares 0 with it. *)
Theorem Slice_v_copy_aliases (s d : Z) (h : heap) :
  let k := Slice_v.make s d h in
  ∃ h2 c,
    Slice_v.copy k.1 k.2 = Ok (h2, c)
    ∧ Slice_v.src c = s
    ∧ Slice_v.dst c = d
    ∧ load h2 (string_data (s_ c)) (string_size (s_ c)) = Ok (encoding s d)
    ∧ Slice.ToString h2 c = Ok (encoding s d)
    ∧ Slice.data c = string_data (s_ k.2)
    ∧ Slice.data c ≠ string_data (s_ c)
    ∧ operator_eq_v c k.2 = true
    ∧ Slice_v.compare c k.2 = 0%Z.
Proof.
  intros k.
  pose proof (make_view s d h) as Hk. fold k in Hk.
  assert (load k.1 (string_data (s_ k.2)) (string_size (s_ k.2))
          = Ok (encoding s d)) as Hs by exact Hk.
  unfold Slice_v.copy. rewrite Hs. result_simpl.
  eexists _, _. split; [reflexivity|]. simpl.
  split; [done|]. split; [done|].
  split.
  { pose proof (load_alloc_new (h ++ [encoding s d]) (encoding s d)) as Hn.
    simpl in Hn. rewrite length_app in *. simpl in *. exact Hn. }
  split.
  { apply (load_alloc _ _ _ _ (encoding s d)) in Hk. exact Hk. }
  split; [done|].
  split.
  { unfold Slice.data, string_data. simpl. rewrite length_app. simpl.
    intros [= Heq]. lia. }
  split.
  - apply operator_eq_v_true. auto.
  - apply Slice_v_compare_zero. done.
Qed.
